(** * A shallow embedding of misc/scheduler-model/graph.py

    The Python module models ninja's critical-path scheduler: a graph of
    [Node]s and [Edge]s, the percentile runtime estimate [p75_runtime], the
    backward relaxation [compute_priority_critical_time], and the [Plan]
    with its readiness tracking and the list-scheduling simulator
    [Plan.execute].

    Representation choices.
    - Nodes and edges are Python objects compared by identity.  They are
      kept here in two lists (an arena) and referred to by their position:
      a node is a [nat] index into the node list, an edge a [nat] index into
      the edge list.  [Edge.inputs], [Edge.outputs] and [Node.in_edge] hold
      such indices.
    - Python integers are [Z].
    - The mutable fields ([Edge.priority], [Node.ready]) are explicit state:
      a [list Z] of priorities indexed like the edges, and a function
      [nat -> bool] of ready flags indexed like the nodes.
    - The module is written in a loose Python dialect: [false], [Optional],
      [heapq.push]/[heapq.pop], [deque.push], the bare names [inputs] and
      [ready], and the locals of [Plan.__init__] do not resolve as written.
      Each is read as the evident name ([False], [heappush]/[heappop],
      [append], [self.inputs], [self.ready]); names that do resolve to some
      other binding are modelled as they resolve (notably [e] in the
      relaxation loop, see [relax_body]). *)

From Stdlib Require Import ZArith Lia List Bool Sorted Permutation Orders.
From Stdlib Require Import Mergesort.
Import ListNotations.
Open Scope Z_scope.

(** ** Data model *)

Record Node := mkNode {
  name : nat;
  in_edge : option nat          (* index of the producing edge *)
}.

Record Edge := mkEdge {
  inputs : list nat;            (* node indices *)
  outputs : list nat;           (* node indices *)
  run_time_ms : option Z;       (* historical estimate *)
  actual_run_time_ms : Z;
  id : Z
}.

Definition default_edge : Edge := mkEdge [] [] None 0 0.

Definition edge_at (edges : list Edge) (i : nat) : Edge :=
  nth i edges default_edge.

Definition in_edge_at (nodes : list Node) (n : nat) : option nat :=
  match nth_error nodes n with
  | Some nd => in_edge nd
  | None => None
  end.

(** Writing one cell of a Python list (the index is always in range where
    it is used). *)
Fixpoint set_nth {A} (l : list A) (i : nat) (v : A) : list A :=
  match l, i with
  | [], _ => []
  | _ :: t, O => v :: t
  | x :: t, S i' => x :: set_nth t i' v
  end.

(** ** [p75_runtime] *)

Module ZLe <: TotalLeBool.
Definition t := Z.
Definition leb (x y : Z) : bool := Z.leb x y.
Infix "<=?" := leb (at level 70, no associativity).
Theorem leb_total : forall a1 a2, (a1 <=? a2) = true \/ (a2 <=? a1) = true.
Proof.
  intros a1 a2; unfold leb; destruct (Z.le_ge_cases a1 a2);
    [left | right]; apply Z.leb_le; lia.
Qed.
End ZLe.

Module ZSort := Sort ZLe.

(** [available_run_times = [e.run_time_ms for e in edges if e.run_time_ms
    is not None]] *)
Definition available_run_times (edges : list Edge) : list Z :=
  flat_map (fun e => match run_time_ms e with
                     | Some t => [t]
                     | None => []
                     end) edges.

(** The index [(n - 1) - (n // 4)], with Python's integer arithmetic. *)
Definition p75_index (n : Z) : Z := (n - 1) - n / 4.

Definition p75_runtime (edges : list Edge) : Z :=
  let available := available_run_times edges in
  match available with
  | [] => 1
  | _ =>
      let sorted := ZSort.sort available in
      let n := Z.of_nat (length sorted) in
      nth (Z.to_nat (p75_index n)) sorted 0
  end.

Definition est_edge (t : Z) : Edge := mkEdge [] [] (Some t) t 0.

(** ** Outcomes of a Python call

    [Returned v] is a normal return, [Raised err] an uncaught exception.
    Loops that the source runs with [while] are given a fuel bound;
    [OutOfFuel] only says that the bound was too small, a run that returns
    or raises within the bound is the Python run. *)

Inductive py_error := ValueError | TypeError | AttributeError.

Inductive outcome (A : Type) :=
| Returned (v : A)
| Raised (err : py_error)
| OutOfFuel.
Arguments Returned {A} v.
Arguments Raised {A} err.
Arguments OutOfFuel {A}.

(** ** [compute_priority_critical_time] *)

Definition run_time_or_default (default_run_time : Z) (e : Edge) : Z :=
  match run_time_ms e with
  | Some t => t
  | None => default_run_time
  end.

(** The locals of the relaxation: the deque [work_queue], the set
    [active_edges] and the [priority] fields of all edges. *)
Record RelaxState := mkRelax {
  work_queue : list nat;
  active_set : list nat;
  priority : list Z
}.

Definition mem (x : nat) (l : list nat) : bool := existsb (Nat.eqb x) l.

Definition set_remove (x : nat) (l : list nat) : list nat :=
  filter (fun y => negb (Nat.eqb x y)) l.

Section Relax.
Variable nodes : list Node.
Variable edges : list Edge.
Variable default_run_time : Z.

Let rt (i : nat) : Z := run_time_or_default default_run_time (edge_at edges i).

(** After [for e in edges: e.priority = run_time_or_default(e)], the
    name [e] stays bound to the last edge of [edges]; the body of the
    [while] loop reads [e.priority], i.e. the priority of that edge. *)
Definition last_edge : nat := Nat.pred (length edges).

(** One iteration of [for n in edge.inputs]. *)
Definition relax_input (st : RelaxState) (n : nat) : RelaxState :=
  match in_edge_at nodes n with
  | None => st
  | Some e_in =>
      let proposed_time := nth last_edge (priority st) 0 + rt e_in in
      if proposed_time <=? nth e_in (priority st) 0 then st
      else
        let prio' := set_nth (priority st) e_in proposed_time in
        if mem e_in (active_set st) then mkRelax (work_queue st) (active_set st) prio'
        else mkRelax (work_queue st ++ [e_in]) (e_in :: active_set st) prio'
  end.

(** The body of the [while] loop, after [edge = work_queue.popleft()]
    and [active_edges.remove(edge)]. *)
Definition relax_body (edge : nat) (st : RelaxState) : RelaxState :=
  fold_left relax_input (inputs (edge_at edges edge)) st.

(** One iteration of [while len(work_queue) > 0]; [None] when the
    worklist is empty. *)
Definition relax_step (st : RelaxState) : option RelaxState :=
  match work_queue st with
  | [] => None
  | edge :: rest =>
      Some (relax_body edge (mkRelax rest (set_remove edge (active_set st)) (priority st)))
  end.

Fixpoint relax_loop (fuel : nat) (st : RelaxState) : option RelaxState :=
  match fuel with
  | O => None
  | S fuel' =>
      match relax_step st with
      | None => Some st
      | Some st' => relax_loop fuel' st'
      end
  end.

Definition relax_init : RelaxState :=
  mkRelax (seq 0 (length edges)) (seq 0 (length edges)) (map (run_time_or_default default_run_time) edges).

(** The relaxation (everything before the tie-break fold). *)
Definition relax (fuel : nat) : option (list Z) :=
  option_map priority (relax_loop fuel relax_init).

(** [max(e.id for e in edges)]; [max] of an empty sequence raises. *)
Definition py_max (l : list Z) : outcome Z :=
  match l with
  | [] => Raised ValueError
  | x :: t => Returned (fold_left Z.max t x)
  end.

Definition tie_break (max_id : Z) (prio : list Z) : list Z :=
  map (fun '(e, p) => p * (max_id + 1) + (max_id - id e)) (combine edges prio).

Definition compute_priority_critical_time (fuel : nat) : outcome (list Z) :=
  match relax fuel with
  | None => OutOfFuel
  | Some prio =>
      match py_max (map id edges) with
      | Returned max_id => Returned (tie_break max_id prio)
      | Raised err => Raised err
      | OutOfFuel => OutOfFuel
      end
  end.
End Relax.

(** ** [Edge.all_inputs_ready], [EdgePriorityQueue] and [Plan] *)

(** The [ready] fields of all nodes, indexed like the node list. *)
Definition Flags := nat -> bool.

Definition set_ready (f : Flags) (n : nat) : Flags :=
  fun m => if Nat.eqb m n then true else f m.

Definition all_inputs_ready (edges : list Edge) (f : Flags) (e : nat) : bool :=
  forallb f (inputs (edge_at edges e)).

(** The ready queue holds edge indices.  [push] adds the edge; [pop] takes
    out an edge of greatest [priority] (the order [__cmp__] asks for; the
    first one in the queue among equal priorities), or returns [None]. *)
Definition push (q : list nat) (e : nat) : list nat := q ++ [e].

Fixpoint best (prio : nat -> Z) (cur : nat) (l : list nat) : nat :=
  match l with
  | [] => cur
  | x :: t => best prio (if prio cur <? prio x then x else cur) t
  end.

Fixpoint remove_first (x : nat) (l : list nat) : list nat :=
  match l with
  | [] => []
  | y :: t => if Nat.eqb x y then t else y :: remove_first x t
  end.

Definition pop (prio : nat -> Z) (q : list nat) : option (nat * list nat) :=
  match q with
  | [] => None
  | x :: t => let b := best prio x t in Some (b, remove_first b q)
  end.

Record Plan := mkPlan {
  ready : list nat;
  waiting_for : nat -> list nat
}.

(** [waiting_for[n].append(e)] on a [defaultdict(list)]. *)
Definition wf_append (wf : nat -> list nat) (n e : nat) : nat -> list nat :=
  fun m => if Nat.eqb m n then wf m ++ [e] else wf m.

Definition build_waiting_for (edges : list Edge) : nat -> list nat :=
  fold_left
    (fun wf e => fold_left (fun wf n => wf_append wf n e) (inputs (edge_at edges e)) wf)
    (seq 0 (length edges)) (fun _ => []).

(** [Plan.__init__]: builds [waiting_for] and an empty [EdgePriorityQueue];
    nothing else is pushed. *)
Definition plan_init (nodes : list Node) (edges : list Edge) : Plan :=
  mkPlan [] (build_waiting_for edges).

Section PlanOps.
Variable edges : list Edge.

(** The state [edge_finished] mutates: node flags and the ready queue. *)
Record PlanState := mkPS {
  flags : Flags;
  queue : list nat
}.

(** [for e in waiting_for[n]: if e.all_inputs_ready(): ready.push(e)] *)
Definition push_ready (f : Flags) (q : list nat) (es : list nat) : list nat :=
  fold_left (fun q e => if all_inputs_ready edges f e then push q e else q) es q.

(** One iteration of [for n in edge.outputs]. *)
Definition finish_node (wf : nat -> list nat) (s : PlanState) (n : nat) : PlanState :=
  let f' := set_ready (flags s) n in
  mkPS f' (push_ready f' (queue s) (wf n)).

Definition edge_finished (wf : nat -> list nat) (s : PlanState) (edge : nat) : PlanState :=
  fold_left (finish_node wf) (outputs (edge_at edges edge)) s.

(** A sequence of [edge_finished] calls. *)
Definition finish_all (wf : nat -> list nat) (s : PlanState) (xs : list nat) : PlanState :=
  fold_left (edge_finished wf) xs s.
End PlanOps.

Definition no_flags : Flags := fun _ => false.

(** The [PlanState] right after [Plan(nodes, edges)] with fresh nodes. *)
Definition plan_state0 (p : Plan) : PlanState := mkPS no_flags (ready p).

(** ** [Plan.execute] *)

(** The locals of [execute].  The dictionary [start_times] is kept as the
    list of its assignments [start_times[e] = t] in the order they are made;
    looking up a key gives its last assignment ([dict_lookup]). *)
Record EState := mkES {
  active_edges : list (option nat);
  completion_time : list (option Z);
  current_time : Z;
  start_times : list (nat * Z);
  pstate : PlanState
}.

Fixpoint dict_lookup (d : list (nat * Z)) (k : nat) : option Z :=
  match d with
  | [] => None
  | (k', v) :: t =>
      match dict_lookup t k with
      | Some w => Some w
      | None => if Nat.eqb k k' then Some v else None
      end
  end.

Definition is_none {A} (o : option A) : bool :=
  match o with None => true | Some _ => false end.

(** [sorted(set(completion_time))] compares [None] with [int] and raises
    [TypeError] when the list holds both. *)
Definition mixed_times (l : list (option Z)) : bool :=
  existsb is_none l && existsb (fun o => negb (is_none o)) l.

Definition somes (l : list (option Z)) : list Z :=
  flat_map (fun o => match o with Some t => [t] | None => [] end) l.

Definition py_min (l : list Z) : option Z :=
  match l with
  | [] => None
  | x :: t => Some (fold_left Z.min t x)
  end.

Inductive step_result :=
| Continue (st : EState)
| Finish (m : list (nat * Z))
| Fail (err : py_error).

Section Execute.
Variable edges : list Edge.
Variable wf : nat -> list nat.
Variable prio : nat -> Z.
Variable n_jobs : nat.

(** [for i in range(n_jobs): if active_edges[i] is None: e = ready.pop();
    if e is None: break; ...] *)
Fixpoint assign (slots : list nat) (st : EState) : EState :=
  match slots with
  | [] => st
  | i :: rest =>
      match nth i (active_edges st) None with
      | Some _ => assign rest st
      | None =>
          match pop prio (queue (pstate st)) with
          | None => st
          | Some (e, q') =>
              let ct := current_time st in
              assign rest
                (mkES (set_nth (active_edges st) i (Some e))
                      (set_nth (completion_time st) i
                               (Some (ct + actual_run_time_ms (edge_at edges e))))
                      ct
                      (start_times st ++ [(e, ct)])
                      (mkPS (flags (pstate st)) q'))
          end
      end
  end.

(** [for i in range(n_jobs): if completion_time[i] != current_time:
    continue; self.edge_finished(active_edges[i]); ...].  [None] is
    returned when [edge_finished(None)] raises [AttributeError]. *)
Fixpoint complete (slots : list nat) (st : EState) : option EState :=
  match slots with
  | [] => Some st
  | i :: rest =>
      match nth i (completion_time st) None with
      | Some t =>
          if Z.eqb t (current_time st) then
            match nth i (active_edges st) None with
            | None => None
            | Some e =>
                complete rest
                  (mkES (set_nth (active_edges st) i None)
                        (set_nth (completion_time st) i None)
                        (current_time st)
                        (start_times st)
                        (edge_finished edges wf (pstate st) e))
            end
          else complete rest st
      | None => complete rest st
      end
  end.

(** One iteration of [while True]. *)
Definition exec_step (st : EState) : step_result :=
  if mixed_times (completion_time st) then Fail TypeError
  else
    let st1 := assign (seq 0 n_jobs) st in
    if forallb is_none (active_edges st1) then Finish (start_times st1)
    else
      match py_min (somes (completion_time st1)) with
      | None => Fail ValueError
      | Some t =>
          match complete (seq 0 n_jobs)
                  (mkES (active_edges st1) (completion_time st1) t
                        (start_times st1) (pstate st1)) with
          | Some st3 => Continue st3
          | None => Fail AttributeError
          end
      end.

Fixpoint execute_loop (fuel : nat) (st : EState) : outcome (list (nat * Z)) :=
  match fuel with
  | O => OutOfFuel
  | S fuel' =>
      match exec_step st with
      | Continue st' => execute_loop fuel' st'
      | Finish m => Returned m
      | Fail err => Raised err
      end
  end.

Definition exec_init (s : PlanState) : EState :=
  mkES (repeat None n_jobs) (repeat None n_jobs) 0 [] s.

(** States met at the start of an iteration of [while True]. *)
Inductive exec_reaches : EState -> EState -> Prop :=
| reach_refl st : exec_reaches st st
| reach_step st st' st'' :
    exec_reaches st st' -> exec_step st' = Continue st'' -> exec_reaches st st''.
End Execute.

(** [Plan(nodes, edges).execute(n_jobs)] from plan state [s], with the
    priorities [prio] left by [compute_priority_critical_time]. *)
Definition execute (edges : list Edge) (p : Plan) (s : PlanState) (prio : list Z)
  (n_jobs fuel : nat) : outcome (list (nat * Z)) :=
  execute_loop edges (waiting_for p) (fun i => nth i prio 0) n_jobs fuel
    (exec_init n_jobs s).

(** The whole pipeline the spec describes: estimate the default runtime,
    compute priorities, build the [Plan] and run [execute(n_jobs)]. *)
Definition schedule (nodes : list Node) (edges : list Edge) (n_jobs fuel : nat)
  : outcome (list (nat * Z)) :=
  match compute_priority_critical_time nodes edges (p75_runtime edges) fuel with
  | Returned prio =>
      let p := plan_init nodes edges in
      execute edges p (plan_state0 p) prio n_jobs fuel
  | Raised err => Raised err
  | OutOfFuel => OutOfFuel
  end.

(** ** Critical time, as §4.2 of the spec defines it

    The length of the longest chain of work that starts at an edge and
    follows the consumers of its outputs: its own runtime plus the largest
    critical time among the edges that read one of its outputs (the edges
    [j] with an input [n] whose [in_edge] is the edge).  The graph is
    acyclic, so a fuel of [length edges] suffices. *)
Section CriticalTime.
Variable nodes : list Node.
Variable edges : list Edge.
Variable default_run_time : Z.

Definition consumers (i : nat) : list nat :=
  filter (fun j => existsb (fun n => match in_edge_at nodes n with
                                    | Some k => Nat.eqb k i
                                    | None => false
                                    end) (inputs (edge_at edges j)))
         (seq 0 (length edges)).

Fixpoint critical_time_fuel (fuel i : nat) : Z :=
  match fuel with
  | O => 0
  | S f =>
      run_time_or_default default_run_time (edge_at edges i)
      + fold_left Z.max (map (critical_time_fuel f) (consumers i)) 0
  end.

Definition critical_time_spec (i : nat) : Z := critical_time_fuel (length edges) i.
End CriticalTime.

(** Every [in_edge] names an edge of the list. *)
Definition graph_wf (nodes : list Node) (edges : list Edge) : Prop :=
  forall n i, in_edge_at nodes n = Some i -> (i < length edges)%nat.

(** ** Sample graphs *)

(** [A -> B -> C]: node [k] is the output of edge [k]. *)
Definition chain_nodes : list Node := [mkNode 0 (Some 0%nat); mkNode 1 (Some 1%nat); mkNode 2 (Some 2%nat)].
Definition chain_edges : list Edge :=
  [mkEdge [] [0%nat] (Some 10) 10 0;
   mkEdge [0%nat] [1%nat] (Some 20) 20 1;
   mkEdge [1%nat] [2%nat] (Some 30) 30 2].

(** Edge 0 ([B], id 1, runtime 5) reads the output of edge 1 ([A], id 0,
    runtime 1); [A] is listed last. *)
Definition ab_nodes : list Node := [mkNode 0 (Some 1%nat)].
Definition ab_edges : list Edge :=
  [mkEdge [0%nat] [] (Some 5) 5 1;
   mkEdge [] [0%nat] (Some 1) 1 0].

(** Two consumers (runtime 1) of the output of a last-listed edge [L]
    (runtime 10). *)
Definition fan_nodes : list Node := [mkNode 0 (Some 2%nat)].
Definition fan_edges : list Edge :=
  [mkEdge [0%nat] [] (Some 1) 1 0;
   mkEdge [0%nat] [] (Some 1) 1 1;
   mkEdge [] [0%nat] (Some 10) 10 2].

(** One edge that reads its own output. *)
Definition loop_nodes : list Node := [mkNode 0 (Some 0%nat)].
Definition loop_edge (t : Z) : list Edge := [mkEdge [0%nat] [0%nat] (Some t) t 0].

(** Edge 1 lists the output of edge 0 twice among its inputs. *)
Definition dup_nodes : list Node := [mkNode 0 (Some 0%nat)].
Definition dup_edges : list Edge :=
  [mkEdge [] [0%nat] (Some 1) 1 0;
   mkEdge [0%nat; 0%nat] [] (Some 2) 2 1].

(** * Proofs *)

(** ** [p75_runtime] *)

Lemma sort_sorted (l : list Z) : Sorted Z.le (ZSort.sort l).
Proof.
  pose proof (ZSort.LocallySorted_sort l) as H.
  apply Sorted_LocallySorted_iff in H.
  induction H as [|a l' Hs IH Hhd]; constructor; auto.
  destruct Hhd; constructor. unfold is_true, ZLe.leb in *. apply Z.leb_le. assumption.
Qed.

Lemma sort_perm (l : list Z) : Permutation l (ZSort.sort l).
Proof. apply ZSort.Permuted_sort. Qed.

Lemma sorted_perm_unique (l1 l2 : list Z) :
  Sorted Z.le l1 -> Sorted Z.le l2 -> Permutation l1 l2 -> l1 = l2.
Proof.
  intros H1 H2 Hp.
  apply Sorted_StronglySorted in H1; [|intros x y z; lia].
  apply Sorted_StronglySorted in H2; [|intros x y z; lia].
  revert l2 H2 Hp. induction H1 as [|a t Ht IH Ha]; intros l2 H2 Hp.
  - symmetry. apply Permutation_nil. assumption.
  - destruct l2 as [|b u].
    + apply Permutation_sym, Permutation_nil in Hp. discriminate.
    + inversion H2 as [|b' u' Hu Hb]; subst.
      assert (a = b) as <-.
      { assert (Hab : In a (b :: u)) by (eapply Permutation_in; [exact Hp | left; reflexivity]).
        assert (Hba : In b (a :: t)) by (eapply Permutation_in; [apply Permutation_sym; exact Hp | left; reflexivity]).
        destruct Hab as [->|Hau]; [reflexivity|].
        destruct Hba as [->|Hbt]; [reflexivity|].
        rewrite Forall_forall in Ha, Hb.
        specialize (Ha b Hbt). specialize (Hb a Hau). lia. }
      f_equal. apply IH; [assumption|]. eapply Permutation_cons_inv. exact Hp.
Qed.

Lemma p75_index_nat (n : nat) :
  (0 < n)%nat -> Z.to_nat (p75_index (Z.of_nat n)) = (Nat.pred n - n / 4)%nat.
Proof.
  intros Hn. unfold p75_index.
  change 4 with (Z.of_nat 4).
  rewrite <- (Nat2Z.inj_div n 4).
  assert (n / 4 <= Nat.pred n)%nat.
  { apply Nat.lt_succ_r. rewrite Nat.succ_pred_pos by lia.
    apply Nat.div_lt; lia. }
  lia.
Qed.

Lemma p75_index_bounds (n : Z) : 0 < n -> 0 <= p75_index n < n.
Proof.
  intros Hn. unfold p75_index.
  assert (0 <= n / 4) by (apply Z.div_pos; lia).
  assert (n / 4 < n) by (apply Z.div_lt; lia).
  assert (4 * (n / 4) <= n) by (apply Z.mul_div_le; lia).
  lia.
Qed.

(** C7: [p75_runtime] returns 1 when no edge has an estimate, and
    otherwise the value at zero-based rank [(n - 1) - n / 4] of the
    collected estimates sorted ascending (any ascending arrangement [s] of
    them); on estimates [5, 10, 15, 20] it returns 15. *)
Theorem p75_runtime_rank (edges : list Edge) (s : list Z)
  (Hperm : Permutation (available_run_times edges) s) (Hsorted : Sorted Z.le s) :
  p75_runtime edges =
    match s with
    | [] => 1
    | _ => nth (Nat.pred (length s) - length s / 4) s 0
    end
  /\ p75_runtime (map est_edge [5; 10; 15; 20]) = 15.
Proof.
  split; [|reflexivity].
  unfold p75_runtime.
  destruct (available_run_times edges) as [|x t] eqn:Ha.
  - apply Permutation_nil in Hperm. subst s. reflexivity.
  - rewrite <- Ha. rewrite <- Ha in Hperm.
    assert (ZSort.sort (available_run_times edges) = s) as ->.
    { apply sorted_perm_unique; [apply sort_sorted | assumption |].
      eapply Permutation_trans; [apply Permutation_sym, sort_perm | exact Hperm]. }
    destruct s as [|y u].
    + apply Permutation_sym, Permutation_nil in Hperm. rewrite Ha in Hperm. discriminate.
    + cbv zeta. rewrite p75_index_nat by (simpl; lia). reflexivity.
Qed.

Lemma p75_runtime_rank_witness :
  Permutation (available_run_times (map est_edge [10; 20; 5; 15])) [5; 10; 15; 20]
  /\ Sorted Z.le [5; 10; 15; 20]
  /\ p75_runtime (map est_edge [10; 20; 5; 15]) = 15.
Proof.
  assert (Hp : Permutation (available_run_times (map est_edge [10; 20; 5; 15])) [5; 10; 15; 20]).
  { simpl. apply Permutation_sym.
    change [5; 10; 15; 20] with ([5] ++ [10; 15; 20]).
    change [10; 20; 5; 15] with ([10; 20] ++ 5 :: [15]).
    apply Permutation_cons_app. simpl. apply perm_skip. apply perm_swap. }
  assert (Hs : Sorted Z.le [5; 10; 15; 20]).
  { repeat (apply Sorted_cons; [| first [apply HdRel_nil | apply HdRel_cons; lia]]).
    apply Sorted_nil. }
  split; [exact Hp|]. split; [exact Hs|].
  destruct (p75_runtime_rank (map est_edge [10; 20; 5; 15]) [5; 10; 15; 20] Hp Hs) as [H _].
  rewrite H. reflexivity.
Defined.

(** C10: for a non-empty list of collected estimates of length [n], the
    index [(n - 1) - n // 4] lies in [0 <= idx < n], and the value returned
    is one of the collected estimates. *)
Theorem p75_index_in_bounds (edges : list Edge)
  (Hne : available_run_times edges <> []) :
  let n := Z.of_nat (length (available_run_times edges)) in
  0 <= p75_index n < n /\ In (p75_runtime edges) (available_run_times edges).
Proof.
  cbv zeta.
  assert (Hn : 0 < Z.of_nat (length (available_run_times edges))).
  { destruct (available_run_times edges); [congruence | simpl; lia]. }
  split; [apply p75_index_bounds; exact Hn|].
  unfold p75_runtime.
  destruct (available_run_times edges) as [|x t] eqn:Ha; [congruence|].
  rewrite <- Ha. rewrite <- Ha in Hn. cbv zeta.
  apply (Permutation_in _ (Permutation_sym (sort_perm _))).
  apply nth_In.
  rewrite <- !(Permutation_length (sort_perm _)).
  pose proof (p75_index_bounds _ Hn) as Hb.
  apply Nat2Z.inj_lt. rewrite Z2Nat.id by lia. lia.
Qed.

Lemma p75_index_in_bounds_witness :
  available_run_times (map est_edge [5; 10; 15; 20]) <> []
  /\ 0 <= p75_index 4 < 4
  /\ In (p75_runtime (map est_edge [5; 10; 15; 20])) [5; 10; 15; 20].
Proof.
  assert (H : available_run_times (map est_edge [5; 10; 15; 20]) <> []) by discriminate.
  split; [exact H|].
  exact (p75_index_in_bounds _ H).
Defined.

(** ** The relaxation of [compute_priority_critical_time] *)

(** C1 (the loop reads the priority of the last edge of [edges]): in
    [ab_edges], the first iteration pops [B] (priority 5) and raises the
    priority of its producer [A] (runtime 1) to [2], the priority of the
    last-listed edge [A] plus 1, where the spec's step gives [5 + 1 = 6]. *)
Theorem relax_step_reads_last_edge :
  relax_step ab_nodes ab_edges 1 (relax_init ab_edges 1)
    = Some (mkRelax [1%nat] [1%nat] [5; 2])
  /\ nth 0 (priority (relax_init ab_edges 1)) 0
     + run_time_or_default 1 (edge_at ab_edges 1) = 6.
Proof. split; reflexivity. Qed.

(** C2 (final priorities): on [ab_edges] the final priorities are [10]
    for [B] and [5] for [A], with [M = 2]; the critical times are [5] for [B]
    and [6] for [A], so the spec's encoding gives [13] for [A], and [A] is
    ranked below [B] although its critical time is larger. *)
Theorem final_priority_ab :
  compute_priority_critical_time ab_nodes ab_edges 1 10 = Returned [10; 5]
  /\ critical_time_spec ab_nodes ab_edges 1 0 = 5
  /\ critical_time_spec ab_nodes ab_edges 1 1 = 6
  /\ critical_time_spec ab_nodes ab_edges 1 1 * 2 + (2 - 1 - id (edge_at ab_edges 1)) = 13.
Proof. repeat split; reflexivity. Qed.

(** C8 (priority bound): on [fan_edges] the relaxation ends with the
    priority [30] for [L], above the sum [12] of all runtimes. *)
Theorem relax_fan_exceeds_sum :
  relax fan_nodes fan_edges 1 10 = Some [1; 1; 30]
  /\ fold_left Z.add (map (run_time_or_default 1) fan_edges) 0 = 12.
Proof. split; reflexivity. Qed.

(** C3, counterexample: [loop_edge 0] consumes its own output (a cycle),
    and the priority computation returns normally instead of failing. *)
Lemma cycle_not_rejected :
  In 0%nat (consumers loop_nodes (loop_edge 0) 0)
  /\ compute_priority_critical_time loop_nodes (loop_edge 0) 1 5 = Returned [0].
Proof. split; [left; reflexivity | reflexivity]. Qed.

Section ZeroRuntimes.
Variable nodes : list Node.
Variable edges : list Edge.
Variable d : Z.
Hypothesis Hwf : graph_wf nodes edges.
Hypothesis Hzero : Forall (fun e => run_time_or_default d e = 0) edges.

Let zeros := repeat 0 (length edges).

Lemma nth_repeat_zero (i k : nat) : nth i (repeat 0 k) 0 = 0.
Proof. revert i; induction k as [|k IH]; intros [|i]; simpl; auto. Qed.

Lemma relax_input_zero (q a : list nat) (n : nat) :
  relax_input nodes edges d (mkRelax q a zeros) n = mkRelax q a zeros.
Proof.
  unfold relax_input. destruct (in_edge_at nodes n) as [i|] eqn:Hi; [|reflexivity].
  cbn [priority]. unfold zeros. rewrite !nth_repeat_zero.
  assert (Hlt := Hwf _ _ Hi).
  assert (Hrt : run_time_or_default d (edge_at edges i) = 0).
  { unfold edge_at. rewrite Forall_forall in Hzero. apply Hzero, nth_In. exact Hlt. }
  rewrite Hrt. reflexivity.
Qed.

Lemma relax_body_zero (edge : nat) (q a : list nat) :
  relax_body nodes edges d edge (mkRelax q a zeros) = mkRelax q a zeros.
Proof.
  unfold relax_body. generalize (inputs (edge_at edges edge)) as ns.
  induction ns as [|n ns IH]; simpl; [reflexivity|].
  rewrite relax_input_zero. exact IH.
Qed.

Lemma relax_loop_zero (q a : list nat) (fuel : nat) :
  (length q < fuel)%nat ->
  relax_loop nodes edges d fuel (mkRelax q a zeros) = Some (mkRelax [] (fold_left (fun a e => set_remove e a) q a) zeros).
Proof.
  revert a fuel. induction q as [|x q IH]; intros a [|fuel] Hf; simpl in Hf; try lia.
  - reflexivity.
  - simpl. unfold relax_step. cbn [work_queue active_set priority].
    rewrite relax_body_zero. apply IH. lia.
Qed.

Lemma map_rt_zero : map (run_time_or_default d) edges = zeros.
Proof using edges d Hzero.
  unfold zeros. revert Hzero. generalize edges as l.
  intros l Hl. induction Hl as [|e l He Hl IH]; simpl; [reflexivity|].
  rewrite He. f_equal. apply IH.
Qed.

Lemma tie_break_zero (m : Z) :
  tie_break edges m zeros = map (fun e => m - id e) edges.
Proof using edges.
  unfold tie_break, zeros. generalize edges as l. clear.
  intros l. induction l as [|e l IH]; simpl; [reflexivity|].
  rewrite IH. reflexivity.
Qed.
End ZeroRuntimes.

(** C3, as amended: there is no cycle check.  Whenever every edge's
    [run_time_or_default] is 0, the relaxation ends after one pass over the
    worklist whatever the dependency structure, cycles included, and every
    edge gets the priority [max_id - id]. *)
Theorem zero_runtime_priorities (nodes : list Node) (edges : list Edge) (d : Z)
  (Hne : edges <> []) (Hwf : graph_wf nodes edges)
  (Hzero : Forall (fun e => run_time_or_default d e = 0) edges) :
  exists max_id,
    py_max (map id edges) = Returned max_id
    /\ compute_priority_critical_time nodes edges d (S (length edges))
       = Returned (map (fun e => max_id - id e) edges).
Proof.
  destruct edges as [|e0 rest] eqn:He; [congruence|]. rewrite <- He in *.
  exists (fold_left Z.max (map id rest) (id e0)).
  assert (Hmax : py_max (map id edges) = Returned (fold_left Z.max (map id rest) (id e0)))
    by (rewrite He; reflexivity).
  split; [exact Hmax|].
  unfold compute_priority_critical_time, relax, relax_init.
  rewrite (map_rt_zero edges d Hzero).
  rewrite relax_loop_zero by (auto; rewrite length_seq; lia).
  simpl option_map. cbv iota beta. rewrite Hmax.
  rewrite tie_break_zero. reflexivity.
Qed.

Lemma zero_runtime_priorities_witness :
  exists max_id,
    py_max (map id (loop_edge 0)) = Returned max_id
    /\ compute_priority_critical_time loop_nodes (loop_edge 0) 1 2
       = Returned (map (fun e => max_id - id e) (loop_edge 0)).
Proof.
  apply (zero_runtime_priorities loop_nodes (loop_edge 0) 1).
  - discriminate.
  - intros n i H. destruct n as [|[|n]]; simpl in H; inversion H; simpl; lia.
  - repeat constructor.
Defined.

(** ** [Plan] *)

(** C4 (no seeding): [Plan.__init__] leaves the ready queue empty, so on
    the chain the edge [A], which has no inputs, is not in it. *)
Theorem plan_init_ready_empty :
  inputs (edge_at chain_edges 0) = []
  /\ ready (plan_init chain_nodes chain_edges) = []
  /\ ~ In 0%nat (ready (plan_init chain_nodes chain_edges)).
Proof. repeat split. intros []. Qed.

(** C6 (the chain scenario): the pipeline on [A -> B -> C] with one job
    returns the empty mapping; from a ready queue holding [A] the same
    [execute] gives the spec's start times [{A: 0, B: 10, C: 30}]. *)
Theorem chain_schedule :
  schedule chain_nodes chain_edges 1 20 = Returned []
  /\ match compute_priority_critical_time chain_nodes chain_edges (p75_runtime chain_edges) 20 with
     | Returned prio =>
         execute chain_edges (plan_init chain_nodes chain_edges) (mkPS no_flags [0%nat]) prio 1 20
           = Returned [(0%nat, 0); (1%nat, 10); (2%nat, 30)]
     | _ => False
     end.
Proof. split; vm_compute; reflexivity. Qed.

(** C5, counterexample: finishing edge 0 of [dup_edges] pushes edge 1
    twice, once per occurrence of node 0 among its inputs. *)
Lemma dup_input_pushed_twice :
  let p := plan_init dup_nodes dup_edges in
  queue (edge_finished dup_edges (waiting_for p) (plan_state0 p) 0) = [1%nat; 1%nat].
Proof. reflexivity. Qed.

(** *** Pushes into the ready queue *)

Local Abbreviation cnt := (count_occ Nat.eq_dec).

Lemma mem_In (m : nat) (P : list nat) : mem m P = true <-> In m P.
Proof.
  unfold mem. rewrite existsb_exists. split.
  - intros [x [Hx Heq]]. apply Nat.eqb_eq in Heq. subst. exact Hx.
  - intros H. exists m. split; [exact H | apply Nat.eqb_refl].
Qed.

Lemma wf_append_fold_count (ns : list nat) (i : nat) (wf0 : nat -> list nat) (m e : nat) :
  cnt (fold_left (fun wf n => wf_append wf n i) ns wf0 m) e
  = (cnt (wf0 m) e + (if Nat.eqb e i then cnt ns m else 0))%nat.
Proof.
  revert wf0. induction ns as [|n ns IH]; intros wf0; simpl.
  - destruct (Nat.eqb e i); lia.
  - rewrite IH. unfold wf_append.
    destruct (Nat.eqb_spec m n) as [->|Hmn].
    + rewrite count_occ_app. simpl.
      destruct (Nat.eq_dec i e), (Nat.eqb_spec e i), (Nat.eq_dec n n); subst; try congruence; lia.
    + destruct (Nat.eq_dec n m); [congruence|]. lia.
Qed.

Section WaitingFor.
Variable edges : list Edge.

Let step := fun (wf : nat -> list nat) (e : nat) =>
  fold_left (fun wf n => wf_append wf n e) (inputs (edge_at edges e)) wf.

Lemma build_count_gen (k s : nat) (wf0 : nat -> list nat) (m e : nat) :
  cnt (fold_left step (seq s k) wf0 m) e
  = (cnt (wf0 m) e
     + (if (s <=? e)%nat && (e <? s + k)%nat then cnt (inputs (edge_at edges e)) m else 0))%nat.
Proof.
  revert s wf0. induction k as [|k IH]; intros s wf0; simpl.
  - destruct ((s <=? e)%nat && (e <? s + 0)%nat) eqn:H; [|lia].
    apply andb_true_iff in H as [H1 H2]. apply Nat.leb_le in H1. apply Nat.ltb_lt in H2. lia.
  - rewrite IH. unfold step. rewrite wf_append_fold_count.
    destruct (Nat.eqb_spec e s), (Nat.leb_spec (S s) e), (Nat.leb_spec s e),
             (Nat.ltb_spec e (S s + k)), (Nat.ltb_spec e (s + S k)); simpl; subst; try lia.
Qed.

Lemma build_waiting_for_count (m e : nat) :
  (cnt (build_waiting_for edges m) e <= cnt (inputs (edge_at edges e)) m)%nat.
Proof.
  unfold build_waiting_for. fold step.
  rewrite build_count_gen. destruct (_ && _); simpl; lia.
Qed.

Lemma push_ready_count (f : Flags) (q es : list nat) (e : nat) :
  cnt (push_ready edges f q es) e
  = (cnt q e + (if all_inputs_ready edges f e then cnt es e else 0))%nat.
Proof.
  revert q. induction es as [|x es IH]; intros q; simpl.
  - destruct (all_inputs_ready edges f e); lia.
  - rewrite IH.
    destruct (Nat.eq_dec x e) as [->|Hxe].
    + destruct (all_inputs_ready edges f e); unfold push;
        [rewrite count_occ_app; simpl; destruct (Nat.eq_dec e e); [lia | congruence] | lia].
    + destruct (all_inputs_ready edges f x); unfold push; [|reflexivity].
      rewrite count_occ_app. simpl. destruct (Nat.eq_dec x e); [congruence|]. lia.
Qed.

Lemma all_inputs_ready_in (f : Flags) (P : list nat) (e : nat) :
  (forall m, f m = mem m P) ->
  all_inputs_ready edges f e = true <-> (forall m, In m (inputs (edge_at edges e)) -> In m P).
Proof.
  intros Hf. unfold all_inputs_ready. rewrite forallb_forall.
  split; intros H m Hm; specialize (H m Hm); [rewrite Hf in H | rewrite Hf]; apply mem_In; exact H.
Qed.

(** Node flags are those of the nodes in [P]; every edge is in the queue
    at most once, and only once all its inputs are in [P]. *)
Definition push_inv (P : list nat) (s : PlanState) : Prop :=
  (forall m, flags s m = mem m P)
  /\ forall e, (cnt (queue s) e <= 1)%nat
               /\ ((1 <= cnt (queue s) e)%nat ->
                   forall m, In m (inputs (edge_at edges e)) -> In m P).

Hypothesis Hin : forall i, NoDup (inputs (edge_at edges i)).

Lemma finish_node_inv (P : list nat) (s : PlanState) (n : nat) :
  push_inv P s -> ~ In n P ->
  push_inv (n :: P) (finish_node edges (build_waiting_for edges) s n).
Proof.
  intros [Hf Hq] Hn.
  assert (Hf' : forall m, set_ready (flags s) n m = mem m (n :: P)).
  { intros m. unfold set_ready. simpl. rewrite Nat.eqb_sym.
    destruct (Nat.eqb n m); simpl; [reflexivity | apply Hf]. }
  split; [exact Hf'|].
  intros e. cbn [queue finish_node]. rewrite push_ready_count.
  destruct (Hq e) as [Hle Hall].
  pose proof (build_waiting_for_count n e) as Hw.
  assert (Hi1 : (cnt (inputs (edge_at edges e)) n <= 1)%nat)
    by (apply NoDup_count_occ; apply Hin).
  destruct (all_inputs_ready edges (set_ready (flags s) n) e) eqn:Hr.
  - pose proof (proj1 (all_inputs_ready_in _ _ e Hf') Hr) as Hr'. clear Hr. rename Hr' into Hr.
    split; [|intros _; exact Hr].
    destruct (cnt (build_waiting_for edges n) e) as [|w] eqn:Hc; [lia|].
    assert (Hinp : In n (inputs (edge_at edges e))) by (apply (count_occ_In Nat.eq_dec); lia).
    destruct (cnt (queue s) e) as [|c] eqn:Hq0; [lia|].
    exfalso. apply Hn. apply (Hall ltac:(lia)). exact Hinp.
  - rewrite Nat.add_0_r. split; [exact Hle|].
    intros H1 m Hm. right. exact (Hall H1 m Hm).
Qed.

Lemma finish_nodes_inv (T P : list nat) (s : PlanState) :
  NoDup T -> (forall n, In n T -> ~ In n P) -> push_inv P s ->
  exists P', push_inv P' (fold_left (finish_node edges (build_waiting_for edges)) T s).
Proof.
  revert P s. induction T as [|n T IH]; intros P s Hnd Hdis Hinv; simpl.
  - exists P. exact Hinv.
  - inversion Hnd as [|n' T' HnT HndT]; subst.
    apply (IH (n :: P)); [exact HndT | |].
    + intros m Hm [->|HmP]; [contradiction|]. apply (Hdis m); [right; exact Hm | exact HmP].
    + apply finish_node_inv; [exact Hinv|]. apply Hdis. left. reflexivity.
Qed.
End WaitingFor.

Lemma finish_all_nodes (edges : list Edge) (wf : nat -> list nat) (xs : list nat) (s : PlanState) :
  finish_all edges wf s xs
  = fold_left (finish_node edges wf) (flat_map (fun x => outputs (edge_at edges x)) xs) s.
Proof.
  unfold finish_all. revert s. induction xs as [|x xs IH]; intros s; simpl; [reflexivity|].
  rewrite fold_left_app. apply IH.
Qed.

(** C5, as amended: an edge enters the ready queue once per check that
    finds all its inputs ready, so it can enter more than once (see
    [dup_input_pushed_twice]).  When no edge lists a node twice among its
    inputs or outputs, no node has two producing edges, all flags start
    false and no edge is finished twice, every edge enters the ready queue
    at most once over the construction and any sequence of [edge_finished]
    calls. *)
Theorem ready_push_at_most_once (nodes : list Node) (edges : list Edge) (xs : list nat)
  (Hin : forall i, NoDup (inputs (edge_at edges i)))
  (Hout : forall i, NoDup (outputs (edge_at edges i)))
  (Hprod : forall i j n, In n (outputs (edge_at edges i)) -> In n (outputs (edge_at edges j)) -> i = j)
  (Hxs : NoDup xs) (e : nat) :
  let p := plan_init nodes edges in
  (cnt (queue (finish_all edges (waiting_for p) (plan_state0 p) xs)) e <= 1)%nat.
Proof.
  cbv zeta. rewrite finish_all_nodes.
  assert (HT : NoDup (flat_map (fun x => outputs (edge_at edges x)) xs)).
  { induction Hxs as [|x xs Hx Hxs IH]; simpl; [constructor|].
    apply NoDup_app; [apply Hout | exact IH |].
    intros a Ha Hb. apply in_flat_map in Hb as [y [Hy Hay]].
    assert (x = y) as <- by exact (Hprod x y a Ha Hay). contradiction. }
  destruct (finish_nodes_inv edges Hin _ [] (plan_state0 (plan_init nodes edges)) HT (fun n _ H => H))
    as [P [_ Hq]].
  - split; [intros m; reflexivity|]. intros e'. simpl. split; [lia | intros H; lia].
  - apply (Hq e).
Qed.

Lemma ready_push_at_most_once_witness :
  (cnt (queue (finish_all chain_edges (waiting_for (plan_init chain_nodes chain_edges))
                (plan_state0 (plan_init chain_nodes chain_edges)) [0%nat; 1%nat; 2%nat])) 2 <= 1)%nat.
Proof.
  apply (ready_push_at_most_once chain_nodes chain_edges [0%nat; 1%nat; 2%nat]).
  - intros [|[|[|[|i]]]]; simpl; repeat (constructor; [intros []|]); constructor.
  - intros [|[|[|[|i]]]]; simpl; repeat (constructor; [intros []|]); constructor.
  - intros i j n Hi Hj.
    destruct i as [|[|[|[|i]]]]; simpl in Hi; try contradiction; destruct Hi as [<-|[]];
    destruct j as [|[|[|[|j]]]]; simpl in Hj; try contradiction; destruct Hj as [Hj|[]];
    congruence.
  - repeat (constructor; [simpl; lia|]). constructor.
Defined.

(** ** [Plan.execute] *)

Lemma Forall_set_nth {A} (P : A -> Prop) (l : list A) (i : nat) (v : A) :
  Forall P l -> P v -> Forall P (set_nth l i v).
Proof.
  revert i. induction l as [|x l IH]; intros i Hl Hv; [constructor|].
  inversion Hl; subst. destruct i; simpl; constructor; auto.
Qed.

Lemma Sorted_app_last (l : list Z) (x : Z) :
  Sorted Z.le l -> Forall (fun y => y <= x) l -> Sorted Z.le (l ++ [x]).
Proof.
  induction l as [|a l IH]; intros Hs Hf; simpl; [repeat constructor|].
  inversion Hs as [|a' l' Hl Ha]; subst. inversion Hf as [|a' l' Hax Hlx]; subst.
  constructor; [apply IH; assumption|].
  destruct l as [|b l]; simpl; constructor; [lia|]. inversion Ha; assumption.
Qed.

Lemma fold_min_le (l : List.list Z) (x : Z) : fold_left Z.min l x <= x /\ Forall (fun y => fold_left Z.min l x <= y) l.
Proof.
  revert x. induction l as [|a l IH]; intros x; simpl; [split; [lia | constructor]|].
  destruct (IH (Z.min x a)) as [H1 H2]. split; [lia|]. constructor; [lia | exact H2].
Qed.

Lemma fold_min_in (l : list Z) (x : Z) : In (fold_left Z.min l x) (x :: l).
Proof.
  revert x. induction l as [|a l IH]; intros x; simpl; [left; reflexivity|].
  destruct (IH (Z.min x a)) as [H|H].
  - destruct (Z.min_spec x a) as [[_ E]|[_ E]]; [left | right; left];
      rewrite <- H; rewrite E; reflexivity.
  - tauto.
Qed.

Lemma in_somes (l : list (option Z)) (t : Z) : In t (somes l) <-> In (Some t) l.
Proof.
  unfold somes. rewrite in_flat_map. split.
  - intros [[x|] [Hx Ht]]; simpl in Ht; [destruct Ht as [<-|[]]; exact Hx | contradiction].
  - intros H. exists (Some t). split; [exact H | left; reflexivity].
Qed.

(** Slots finish no earlier than the clock; start times are sorted and not
    later than the clock. *)
Definition exec_inv (st : EState) : Prop :=
  Forall (fun o => forall t, o = Some t -> current_time st <= t) (completion_time st)
  /\ Forall (fun p => snd p <= current_time st) (start_times st)
  /\ Sorted Z.le (map snd (start_times st)).

Section ExecuteProofs.
Variable edges : list Edge.
Variable wf : nat -> list nat.
Variable prio : nat -> Z.
Variable n_jobs : nat.
Hypothesis Hrt : forall i, 0 <= actual_run_time_ms (edge_at edges i).

Lemma assign_inv (slots : list nat) (st : EState) :
  exec_inv st ->
  exec_inv (assign edges prio slots st)
  /\ current_time (assign edges prio slots st) = current_time st
  /\ exists new, start_times (assign edges prio slots st) = start_times st ++ new.
Proof using Hrt.
  revert st. induction slots as [|i rest IH]; intros st Hinv; simpl.
  - split; [exact Hinv|]. split; [reflexivity|]. exists []. symmetry. apply app_nil_r.
  - destruct (nth i (active_edges st) None) as [a|].
    + apply IH. exact Hinv.
    + destruct (pop prio (queue (pstate st))) as [[e q']|].
      2: { split; [exact Hinv|]. split; [reflexivity|]. exists []. symmetry. apply app_nil_r. }
      destruct Hinv as [Hc [Hs Hsort]].
      edestruct IH as [Hinv' [Hct [new Hnew]]].
      2: { split; [exact Hinv'|]. split; [exact Hct|].
           rewrite Hnew. cbn [start_times]. exists ((e, current_time st) :: new).
           rewrite <- app_assoc. reflexivity. }
      unfold exec_inv; cbn [completion_time current_time start_times]. split; [|split].
      * apply Forall_set_nth; [exact Hc|]. intros t Ht. inversion Ht. pose proof (Hrt e). lia.
      * apply Forall_app. split; [exact Hs|]. constructor; [simpl; lia | constructor].
      * rewrite map_app. apply Sorted_app_last; [exact Hsort|].
        apply Forall_map. exact Hs.
Qed.

Lemma complete_inv (slots : list nat) (st st' : EState) :
  complete edges wf slots st = Some st' ->
  current_time st' = current_time st
  /\ start_times st' = start_times st
  /\ (forall Q : option Z -> Prop, Q None ->
        Forall Q (completion_time st) -> Forall Q (completion_time st')).
Proof.
  revert st. induction slots as [|i rest IH]; intros st H; simpl in H.
  - inversion H; subst. auto.
  - destruct (nth i (completion_time st) None) as [t|]; [|apply IH; exact H].
    destruct (Z.eqb t (current_time st)); [|apply IH; exact H].
    destruct (nth i (active_edges st) None) as [e|]; [|discriminate].
    destruct (IH _ H) as [H1 [H2 H3]]. cbn [current_time start_times completion_time] in *.
    split; [exact H1|]. split; [exact H2|].
    intros Q HQ Hf. apply H3; [exact HQ|]. apply Forall_set_nth; assumption.
Qed.

Lemma exec_step_inv (st st' : EState) :
  exec_inv st -> exec_step edges wf prio n_jobs st = Continue st' ->
  exec_inv st'
  /\ current_time st <= current_time st'
  /\ exists new, start_times st' = start_times st ++ new.
Proof using Hrt.
  intros Hinv H. unfold exec_step in H.
  destruct (mixed_times (completion_time st)); [discriminate|].
  destruct (assign_inv (seq 0 n_jobs) st Hinv) as [[Hc [Hs Hsort]] [Hct [new Hnew]]].
  set (st1 := assign edges prio (seq 0 n_jobs) st) in *.
  destruct (forallb is_none (active_edges st1)); [discriminate|].
  destruct (py_min (somes (completion_time st1))) as [t|] eqn:Hmin; [|discriminate].
  destruct (complete edges wf (seq 0 n_jobs) _) as [st3|] eqn:Hcomp; [|discriminate].
  inversion H; subst st3. clear H.
  destruct (complete_inv _ _ _ Hcomp) as [E1 [E2 E3]]. cbn [current_time start_times completion_time] in *.
  destruct (somes (completion_time st1)) as [|x l] eqn:Hl; [discriminate|].
  inversion Hmin as [Ht]. clear Hmin.
  destruct (fold_min_le l x) as [Hm1 Hm2]. rewrite Ht in Hm1, Hm2.
  assert (Hall : forall y, In y (x :: l) -> t <= y).
  { intros y [<-|Hy]; [exact Hm1|]. rewrite Forall_forall in Hm2. apply Hm2, Hy. }
  assert (Hge : current_time st <= t).
  { pose proof (fold_min_in l x) as Hin. rewrite Ht in Hin. rewrite <- Hl in Hin.
    apply in_somes in Hin. rewrite Forall_forall in Hc.
    rewrite <- Hct. apply (Hc _ Hin). reflexivity. }
  split; [|split].
  - unfold exec_inv. rewrite E1, E2. split; [|split].
    + apply E3; [intros ? H; discriminate|].
      apply Forall_forall. intros o Ho t' ->. apply Hall. rewrite <- Hl. apply in_somes, Ho.
    + eapply Forall_impl; [|exact Hs]. intros p Hp. cbv beta in Hp. lia.
    + exact Hsort.
  - rewrite E1. exact Hge.
  - rewrite E2. exists new. exact Hnew.
Qed.

Lemma exec_init_inv (s : PlanState) : exec_inv (exec_init n_jobs s).
Proof.
  unfold exec_inv, exec_init; cbn [completion_time current_time start_times].
  split; [|split; [constructor | constructor]].
  apply Forall_forall. intros o Ho. apply repeat_spec in Ho. subst. discriminate.
Qed.

Lemma exec_reaches_inv (s : PlanState) (st : EState) :
  exec_reaches edges wf prio n_jobs (exec_init n_jobs s) st -> exec_inv st.
Proof using Hrt.
  intros H. remember (exec_init n_jobs s) as st0 eqn:E.
  induction H as [|st st' st'' Hr IH Hs].
  - subst. apply exec_init_inv.
  - exact (proj1 (exec_step_inv _ _ (IH E) Hs)).
Qed.
End ExecuteProofs.

(** C9, as amended: along any run of [execute(n_jobs)] (from any plan
    state), the start times recorded so far, in the order they were
    assigned, are non-decreasing; an iteration never moves [current_time]
    backwards and only appends to the assignments; the returned mapping
    extends the assignments with a non-decreasing sequence. *)
Theorem execute_clock_monotone (edges : list Edge) (wf : nat -> list nat) (prio : nat -> Z)
  (n_jobs : nat) (s : PlanState) (Hn : (1 <= n_jobs)%nat)
  (Hrt : forall i, 0 <= actual_run_time_ms (edge_at edges i))
  (st : EState) (Hreach : exec_reaches edges wf prio n_jobs (exec_init n_jobs s) st) :
  Sorted Z.le (map snd (start_times st))
  /\ (forall st', exec_step edges wf prio n_jobs st = Continue st' ->
        current_time st <= current_time st'
        /\ exists new, start_times st' = start_times st ++ new)
  /\ (forall m, exec_step edges wf prio n_jobs st = Finish m ->
        Sorted Z.le (map snd m) /\ exists new, m = start_times st ++ new).
Proof.
  pose proof (exec_reaches_inv edges wf prio n_jobs Hrt s st Hreach) as Hinv.
  split; [exact (proj2 (proj2 Hinv))|]. split.
  - intros st' H. destruct (exec_step_inv edges wf prio n_jobs Hrt st st' Hinv H) as [_ [H1 H2]].
    split; assumption.
  - intros m H. unfold exec_step in H.
    destruct (mixed_times (completion_time st)); [discriminate|].
    destruct (assign_inv edges prio Hrt (seq 0 n_jobs) st Hinv) as [[_ [_ Hsort]] [_ Hnew]].
    destruct (forallb is_none _); [|destruct (py_min _); [destruct (complete _ _ _ _)|]; discriminate].
    inversion H; subst m. split; assumption.
Qed.

Lemma execute_clock_monotone_witness :
  (1 <= 1)%nat
  /\ (forall i, 0 <= actual_run_time_ms (edge_at chain_edges i))
  /\ Sorted Z.le (map snd (start_times (exec_init 1 (mkPS no_flags [0%nat]))))
  /\ (forall st', exec_step chain_edges (waiting_for (plan_init chain_nodes chain_edges))
                    (fun i => nth i [122; 151; 90] 0) 1 (exec_init 1 (mkPS no_flags [0%nat]))
                  = Continue st' -> 0 <= current_time st').
Proof.
  assert (Hrt : forall i, 0 <= actual_run_time_ms (edge_at chain_edges i))
    by (intros [|[|[|[|i]]]]; simpl; lia).
  destruct (execute_clock_monotone chain_edges (waiting_for (plan_init chain_nodes chain_edges))
              (fun i => nth i [122; 151; 90] 0) 1 (mkPS no_flags [0%nat]) (le_n 1) Hrt
              (exec_init 1 (mkPS no_flags [0%nat])) (reach_refl _ _ _ _ _)) as [H1 [H2 _]].
  split; [exact (le_n 1)|]. split; [exact Hrt|]. split; [exact H1|].
  intros st' H. exact (proj1 (H2 st' H)).
Defined.

(** C9, counterexample: after [edge_finished] on edge 0 of [dup_edges],
    the ready queue holds edge 1 twice and [execute(1)] starts it twice,
    at times 0 and 2; the dictionary keeps the later start. *)
Lemma execute_starts_edge_twice :
  let p := plan_init dup_nodes dup_edges in
  match compute_priority_critical_time dup_nodes dup_edges (p75_runtime dup_edges) 10 with
  | Returned prio =>
      execute dup_edges p (edge_finished dup_edges (waiting_for p) (plan_state0 p) 0) prio 1 10
        = Returned [(1%nat, 0); (1%nat, 2)]
  | _ => False
  end
  /\ dict_lookup [(1%nat, 0); (1%nat, 2)] 1 = Some 2.
Proof. split; vm_compute; reflexivity. Qed.

(** * Further properties of the module *)

(** ** [EdgePriorityQueue.pop] *)

Lemma best_spec (prio : nat -> Z) (cur : nat) (l : list nat) :
  In (best prio cur l) (cur :: l)
  /\ forall x, In x (cur :: l) -> prio x <= prio (best prio cur l).
Proof.
  revert cur. induction l as [|y l IH]; intros cur; simpl.
  - split; [left; reflexivity|]. intros x [<-|[]]. lia.
  - destruct (IH (if prio cur <? prio y then y else cur)) as [H1 H2].
    destruct (Z.ltb_spec (prio cur) (prio y)).
    + split; [simpl in H1; tauto|].
      intros x [<-|[<-|Hx]]; [specialize (H2 y (or_introl eq_refl)); lia | apply H2; left; reflexivity | apply H2; right; exact Hx].
    + split; [simpl in H1; tauto|].
      intros x [<-|[<-|Hx]]; [apply H2; left; reflexivity | specialize (H2 cur (or_introl eq_refl)); lia | apply H2; right; exact Hx].
Qed.

Lemma remove_first_perm (x : nat) (l : list nat) :
  In x l -> Permutation l (x :: remove_first x l).
Proof.
  induction l as [|y l IH]; intros H; [destruct H|]. simpl.
  destruct (Nat.eqb_spec x y) as [->|Hne]; [reflexivity|].
  destruct H as [->|H]; [congruence|].
  eapply Permutation_trans; [apply perm_skip, IH, H | apply perm_swap].
Qed.

(** [pop] on an empty queue returns [None]; otherwise it returns an edge of
    the queue whose priority is at least that of every queued edge, and the
    queue left behind holds the other edges (as a multiset). *)
Theorem pop_spec (prio : nat -> Z) (q : list nat) :
  (pop prio q = None <-> q = [])
  /\ forall b q', pop prio q = Some (b, q') ->
       In b q /\ (forall x, In x q -> prio x <= prio b) /\ Permutation q (b :: q').
Proof.
  split.
  - destruct q; simpl; split; congruence.
  - intros b q' H. destruct q as [|x t]; [discriminate|]. simpl in H. inversion H; subst; clear H.
    destruct (best_spec prio x t) as [H1 H2].
    split; [exact H1|]. split; [exact H2|]. apply remove_first_perm. exact H1.
Qed.

(** ** [Plan.__init__]: [waiting_for] *)

(** Edge [e] appears in [waiting_for[n]] exactly as many times as [n]
    occurs among its inputs (an edge with [k] inputs is in [k] lists). *)
Theorem waiting_for_count (nodes : list Node) (edges : list Edge) (n e : nat) :
  count_occ Nat.eq_dec (waiting_for (plan_init nodes edges) n) e
  = if (e <? length edges)%nat then count_occ Nat.eq_dec (inputs (edge_at edges e)) n else 0%nat.
Proof.
  simpl. unfold build_waiting_for. rewrite build_count_gen. simpl.
  destruct (e <? length edges)%nat; reflexivity.
Qed.

(** ** [Plan.edge_finished] *)

Lemma push_ready_app (edges : list Edge) (f : Flags) (q es : list nat) :
  push_ready edges f q es = q ++ filter (all_inputs_ready edges f) es.
Proof.
  revert q. induction es as [|x es IH]; intros q; simpl; [symmetry; apply app_nil_r|].
  rewrite IH. destruct (all_inputs_ready edges f x); unfold push; [rewrite <- app_assoc|]; reflexivity.
Qed.

Lemma all_inputs_ready_mono (edges : list Edge) (f g : Flags) (e : nat) :
  (forall m, f m = true -> g m = true) ->
  all_inputs_ready edges f e = true -> all_inputs_ready edges g e = true.
Proof.
  unfold all_inputs_ready. rewrite !forallb_forall. intros Hfg H m Hm. apply Hfg, H, Hm.
Qed.

Lemma finish_nodes_flags (edges : list Edge) (wf : nat -> list nat) (ns : list nat) (s : PlanState) (m : nat) :
  flags (fold_left (finish_node edges wf) ns s) m = flags s m || mem m ns.
Proof.
  revert s. induction ns as [|n ns IH]; intros s; simpl.
  - rewrite orb_false_r. reflexivity.
  - rewrite IH. simpl. unfold set_ready.
    destruct (Nat.eqb m n); simpl; [rewrite orb_true_r; reflexivity | reflexivity].
Qed.

(** After [edge_finished(edge)] a node is ready exactly when it was ready
    before or is an output of [edge]: no flag is ever cleared. *)
Theorem edge_finished_flags (edges : list Edge) (wf : nat -> list nat) (s : PlanState) (x m : nat) :
  flags (edge_finished edges wf s x) m = flags s m || mem m (outputs (edge_at edges x)).
Proof. apply finish_nodes_flags. Qed.

Lemma finish_nodes_queue (edges : list Edge) (wf : nat -> list nat) (ns : list nat) (s : PlanState) :
  exists new,
    queue (fold_left (finish_node edges wf) ns s) = queue s ++ new
    /\ forall e, In e new ->
         all_inputs_ready edges (flags (fold_left (finish_node edges wf) ns s)) e = true
         /\ exists n, In n ns /\ In e (wf n).
Proof.
  revert s. induction ns as [|n ns IH]; intros s; simpl.
  - exists []. split; [symmetry; apply app_nil_r | intros e []].
  - destruct (IH (finish_node edges wf s n)) as [new [Hq Hnew]].
    simpl in Hq. rewrite push_ready_app in Hq.
    exists (filter (all_inputs_ready edges (set_ready (flags s) n)) (wf n) ++ new).
    split; [rewrite Hq, app_assoc; reflexivity|].
    intros e He. apply in_app_or in He as [He|He].
    + apply filter_In in He as [Hw Hr]. split.
      * eapply all_inputs_ready_mono; [|exact Hr].
        intros m Hm. rewrite finish_nodes_flags. simpl. rewrite Hm. reflexivity.
      * exists n. split; [left; reflexivity | exact Hw].
    + destruct (Hnew e He) as [Hr [n' [Hn' Hw]]]. split; [exact Hr|].
      exists n'. split; [right; exact Hn' | exact Hw].
Qed.

(** [edge_finished(edge)] only appends to the ready queue, and every edge it
    appends has all its inputs ready afterwards and waits on an output of
    [edge]. *)
Theorem edge_finished_pushes (edges : list Edge) (wf : nat -> list nat) (s : PlanState) (x : nat) :
  exists new,
    queue (edge_finished edges wf s x) = queue s ++ new
    /\ forall e, In e new ->
         all_inputs_ready edges (flags (edge_finished edges wf s x)) e = true
         /\ exists n, In n (outputs (edge_at edges x)) /\ In e (wf n).
Proof. apply finish_nodes_queue. Qed.

(** ** The relaxation *)

Lemma length_set_nth {A} (l : list A) (j : nat) (v : A) : length (set_nth l j v) = length l.
Proof. revert j; induction l as [|x l IH]; intros [|j]; simpl; auto. Qed.

Lemma nth_set_nth {A} (l : list A) (i j : nat) (v d : A) :
  nth i (set_nth l j v) d
  = if Nat.eqb i j then (if (j <? length l)%nat then v else nth i l d) else nth i l d.
Proof.
  revert i j. induction l as [|x l IH]; intros i j.
  - simpl. destruct i, j; destruct (Nat.eqb _ _); reflexivity.
  - destruct i, j; simpl; try reflexivity.
    rewrite IH. simpl. reflexivity.
Qed.

Section RelaxProps.
Variable nodes : list Node.
Variable edges : list Edge.
Variable d : Z.

(** No edge has an input produced by edge [i]. *)
Definition unread (i : nat) : Prop :=
  forall j n, In n (inputs (edge_at edges j)) -> in_edge_at nodes n <> Some i.

(** One step only raises priorities, and leaves those of unread edges
    alone. *)
Definition raises (p p' : list Z) : Prop :=
  length p' = length p
  /\ (forall i, nth i p 0 <= nth i p' 0)
  /\ (forall i, unread i -> nth i p' 0 = nth i p 0).

Lemma raises_refl (p : list Z) : raises p p.
Proof. split; [reflexivity|]. split; intros; lia. Qed.

Lemma raises_trans (p1 p2 p3 : list Z) : raises p1 p2 -> raises p2 p3 -> raises p1 p3.
Proof.
  intros [L1 [M1 U1]] [L2 [M2 U2]]. split; [congruence|]. split.
  - intros i. specialize (M1 i). specialize (M2 i). lia.
  - intros i H. rewrite U2, U1; auto.
Qed.

Lemma relax_input_raises (st : RelaxState) (j n : nat) :
  In n (inputs (edge_at edges j)) ->
  raises (priority st) (priority (relax_input nodes edges d st n)).
Proof.
  intros Hj. unfold relax_input. destruct (in_edge_at nodes n) as [e_in|] eqn:Hn; [|apply raises_refl].
  destruct (Z.leb_spec (nth (last_edge edges) (priority st) 0
                        + run_time_or_default d (edge_at edges e_in))
                       (nth e_in (priority st) 0)) as [Hle|Hgt]; [apply raises_refl|].
  assert (R : raises (priority st) (set_nth (priority st) e_in
               (nth (last_edge edges) (priority st) 0 + run_time_or_default d (edge_at edges e_in)))).
  { split; [apply length_set_nth|]. split.
    - intros i. rewrite nth_set_nth.
      destruct (Nat.eqb_spec i e_in) as [->|]; [|lia].
      destruct (e_in <? length (priority st))%nat; lia.
    - intros i Hi. rewrite nth_set_nth.
      destruct (Nat.eqb_spec i e_in) as [->|]; [|reflexivity].
      exfalso. exact (Hi j n Hj Hn). }
  destruct (mem e_in (active_set st)); exact R.
Qed.

Lemma relax_body_raises (edge : nat) (st : RelaxState) :
  raises (priority st) (priority (relax_body nodes edges d edge st)).
Proof.
  unfold relax_body.
  assert (Hsub : forall n, In n (inputs (edge_at edges edge)) -> In n (inputs (edge_at edges edge)))
    by auto.
  revert Hsub. generalize (inputs (edge_at edges edge)) at 1 3 as ns.
  intros ns. revert st. induction ns as [|n ns IH]; intros st Hsub; simpl; [apply raises_refl|].
  eapply raises_trans; [apply (relax_input_raises _ edge n), Hsub; left; reflexivity|].
  apply IH. intros m Hm. apply Hsub. right. exact Hm.
Qed.

Lemma relax_loop_raises (fuel : nat) (st st' : RelaxState) :
  relax_loop nodes edges d fuel st = Some st' -> raises (priority st) (priority st').
Proof.
  revert st. induction fuel as [|fuel IH]; intros st H; simpl in H; [discriminate|].
  unfold relax_step in H. destruct (work_queue st) as [|edge rest].
  - inversion H; subst. apply raises_refl.
  - eapply raises_trans;
      [apply (relax_body_raises edge (mkRelax rest (set_remove edge (active_set st)) (priority st)))|].
    apply IH. exact H.
Qed.

(** The worklist holds no edge twice, and the set [active_edges] holds
    exactly the edges of the worklist. *)
Definition queue_inv (st : RelaxState) : Prop :=
  NoDup (work_queue st) /\ forall x, In x (active_set st) <-> In x (work_queue st).

Lemma mem_In_nat (x : nat) (l : list nat) : mem x l = true <-> In x l.
Proof. apply mem_In. Qed.

Lemma relax_input_queue_inv (st : RelaxState) (n : nat) :
  queue_inv st -> queue_inv (relax_input nodes edges d st n).
Proof.
  intros [Hnd Hact]. unfold relax_input.
  destruct (in_edge_at nodes n) as [e_in|]; [|split; assumption].
  destruct (_ <=? _); [split; assumption|].
  destruct (mem e_in (active_set st)) eqn:Hm; [split; assumption|].
  assert (Hnq : ~ In e_in (work_queue st)).
  { intros Hq. apply Hact, mem_In in Hq. congruence. }
  split; cbn [work_queue active_set].
  - apply NoDup_app; [exact Hnd | repeat constructor; intros []|].
    intros a Ha [<-|[]]. contradiction.
  - intros x. simpl. rewrite in_app_iff, Hact. simpl. tauto.
Qed.

Lemma relax_step_queue_inv (st st' : RelaxState) :
  queue_inv st -> relax_step nodes edges d st = Some st' -> queue_inv st'.
Proof.
  intros [Hnd Hact] H. unfold relax_step in H.
  destruct (work_queue st) as [|edge rest] eqn:Hq; [discriminate|]. inversion H; subst; clear H.
  unfold relax_body. generalize (inputs (edge_at edges edge)) as ns. intros ns.
  assert (Hinv : queue_inv (mkRelax rest (set_remove edge (active_set st)) (priority st))).
  { inversion Hnd as [|e' r' Hnin Hndr]; subst. split; [exact Hndr|].
    intros x. cbn [active_set work_queue]. unfold set_remove. rewrite filter_In, Hact. simpl.
    split.
    - intros [[Hx|Hx] Hneq]; [subst; rewrite Nat.eqb_refl in Hneq; discriminate | exact Hx].
    - intros Hx. split; [right; exact Hx|].
      destruct (Nat.eqb_spec edge x); [subst; contradiction | reflexivity]. }
  revert Hinv. generalize (mkRelax rest (set_remove edge (active_set st)) (priority st)) as s0.
  induction ns as [|n ns IH]; intros s0 Hinv; simpl; [exact Hinv|].
  apply IH. apply relax_input_queue_inv. exact Hinv.
Qed.
End RelaxProps.

(** Every state the relaxation passes through, starting from its initial
    state, keeps the worklist free of duplicates and [active_edges] equal
    to the set of worklist entries, so an edge is never pending twice. *)
Theorem relax_queue_invariant (nodes : list Node) (edges : list Edge) (d : Z) (st : RelaxState) :
  clos_refl_trans_1n _ (fun a b => relax_step nodes edges d a = Some b) (relax_init edges d) st ->
  queue_inv st.
Proof.
  intros H.
  assert (H0 : queue_inv (relax_init edges d)).
  { split; [apply seq_NoDup | intros x; reflexivity]. }
  revert H0. induction H as [x|x y z Hxy Hyz IH]; intros Hx; [exact Hx|].
  apply IH. eapply relax_step_queue_inv; eassumption.
Qed.

Lemma relax_queue_invariant_witness :
  queue_inv (mkRelax [1%nat] [1%nat] [5; 2]).
Proof.
  apply (relax_queue_invariant ab_nodes ab_edges 1).
  econstructor 2; [reflexivity | constructor 1].
Defined.

Lemma relax_result_bounds (nodes : list Node) (edges : list Edge) (d : Z) (fuel : nat) (p : list Z) :
  relax nodes edges d fuel = Some p ->
  length p = length edges
  /\ (forall i, (i < length edges)%nat -> run_time_or_default d (edge_at edges i) <= nth i p 0)
  /\ (forall i, (i < length edges)%nat -> unread nodes edges i ->
        nth i p 0 = run_time_or_default d (edge_at edges i)).
Proof.
  unfold relax. destruct (relax_loop nodes edges d fuel (relax_init edges d)) as [st|] eqn:H;
    [|discriminate].
  intros E. simpl in E. inversion E; subst p; clear E.
  destruct (relax_loop_raises nodes edges d fuel _ _ H) as [L [M U]].
  cbn [priority relax_init] in L, M, U.
  assert (Hn : forall i, (i < length edges)%nat ->
                nth i (map (run_time_or_default d) edges) 0 = run_time_or_default d (edge_at edges i)).
  { intros i Hi. unfold edge_at. rewrite <- (map_nth (run_time_or_default d) edges default_edge i).
    apply nth_indep. rewrite length_map. exact Hi. }
  split; [rewrite L, length_map; reflexivity|]. split.
  - intros i Hi. rewrite <- Hn by exact Hi. apply M.
  - intros i Hi Hni. rewrite <- Hn by exact Hi. apply U, Hni.
Qed.

(** When the relaxation ends, every edge's priority is at least its
    [run_time_or_default], and an edge none of whose outputs is read by an
    edge (no input node has it as [in_edge]) keeps exactly that value. *)
Theorem relax_priority_bounds (nodes : list Node) (edges : list Edge) (d : Z) (fuel : nat) (p : list Z) :
  relax nodes edges d fuel = Some p ->
  length p = length edges
  /\ (forall i, (i < length edges)%nat -> run_time_or_default d (edge_at edges i) <= nth i p 0)
  /\ (forall i, (i < length edges)%nat -> unread nodes edges i ->
        nth i p 0 = run_time_or_default d (edge_at edges i)).
Proof. apply relax_result_bounds. Qed.

Lemma relax_priority_bounds_witness :
  relax chain_nodes chain_edges 1 20 = Some [40; 50; 30]
  /\ nth 2 [40; 50; 30] 0 = run_time_or_default 1 (edge_at chain_edges 2).
Proof.
  assert (H : relax chain_nodes chain_edges 1 20 = Some [40; 50; 30]) by reflexivity.
  split; [exact H|].
  destruct (relax_priority_bounds _ _ _ _ _ H) as [_ [_ U]].
  apply U; [simpl; lia|].
  intros [|[|[|[|j]]]] n Hn; simpl in Hn; try contradiction;
    destruct Hn as [<-|[]]; discriminate.
Defined.

(** With no edges, the priority computation raises [ValueError] from
    [max()] of an empty sequence. *)
Theorem compute_priorities_empty (nodes : list Node) (d : Z) (fuel : nat) :
  compute_priority_critical_time nodes [] d (S fuel) = Raised ValueError.
Proof. reflexivity. Qed.

(** ** The tie-break fold *)

Lemma nth_tie_break (edges : list Edge) (m : Z) (p : list Z) (i : nat) :
  length p = length edges -> (i < length edges)%nat ->
  nth i (tie_break edges m p) 0 = nth i p 0 * (m + 1) + (m - id (edge_at edges i)).
Proof.
  unfold tie_break, edge_at. revert p i.
  induction edges as [|e es IH]; intros p i Hl Hi; [simpl in Hi; lia|].
  destruct p as [|x p]; [discriminate|]. destruct i as [|i]; simpl; [reflexivity|].
  apply IH; simpl in *; lia.
Qed.

Lemma fold_max_ge (l : list Z) (x : Z) :
  x <= fold_left Z.max l x /\ forall y, In y l -> y <= fold_left Z.max l x.
Proof.
  revert x. induction l as [|a l IH]; intros x; simpl; [split; [lia | intros y []]|].
  destruct (IH (Z.max x a)) as [H1 H2]. split; [lia|].
  intros y [<-|Hy]; [lia | apply H2, Hy].
Qed.

Lemma lex_encode (m pi pj ai aj : Z) :
  0 <= ai <= m -> 0 <= aj <= m ->
  (pj * (m + 1) + aj < pi * (m + 1) + ai <-> pj < pi \/ (pi = pj /\ aj < ai)).
Proof.
  intros Hi Hj. split.
  - intros H. destruct (Z.lt_trichotomy pj pi) as [Hlt|[Heq|Hgt]].
    + left; exact Hlt.
    + right. subst. split; [reflexivity | lia].
    + exfalso. assert (pi * (m + 1) + (m + 1) <= pj * (m + 1)) by nia. lia.
  - intros [H|[-> H]]; [|lia].
    assert (pj * (m + 1) + (m + 1) <= pi * (m + 1)) by nia. lia.
Qed.

(** When [compute_priority_critical_time] returns, with non-negative ids,
    its final priorities order the edges by the relaxed priority, larger
    first, and among equal relaxed priorities by id, smaller first; edges
    with different ids get different final priorities. *)
Theorem final_priority_order (nodes : list Node) (edges : list Edge) (d : Z) (fuel : nat)
  (fin : list Z) (H : compute_priority_critical_time nodes edges d fuel = Returned fin)
  (Hid : forall i, (i < length edges)%nat -> 0 <= id (edge_at edges i)) :
  exists p, relax nodes edges d fuel = Some p
  /\ forall i j, (i < length edges)%nat -> (j < length edges)%nat ->
       (nth j fin 0 < nth i fin 0
          <-> nth j p 0 < nth i p 0
              \/ (nth i p 0 = nth j p 0 /\ id (edge_at edges i) < id (edge_at edges j)))
       /\ (id (edge_at edges i) <> id (edge_at edges j) -> nth i fin 0 <> nth j fin 0).
Proof.
  unfold compute_priority_critical_time in H.
  destruct (relax nodes edges d fuel) as [p|] eqn:Hr; [|discriminate].
  destruct (py_max (map id edges)) as [m| |] eqn:Hm; try discriminate.
  inversion H; subst fin; clear H.
  exists p. split; [reflexivity|].
  destruct (relax_result_bounds _ _ _ _ _ Hr) as [Hl _].
  assert (Hle : forall i, (i < length edges)%nat -> id (edge_at edges i) <= m).
  { intros i Hi. destruct edges as [|e0 es]; [simpl in Hi; lia|].
    simpl in Hm. inversion Hm; subst m.
    destruct (fold_max_ge (map id es) (id e0)) as [H1 H2].
    destruct i as [|i]; [exact H1|]. apply H2. unfold edge_at. simpl.
    apply in_map. apply nth_In. simpl in Hi. lia. }
  assert (Hord : forall i j, (i < length edges)%nat -> (j < length edges)%nat ->
            (nth j (tie_break edges m p) 0 < nth i (tie_break edges m p) 0
             <-> nth j p 0 < nth i p 0
                 \/ (nth i p 0 = nth j p 0 /\ id (edge_at edges i) < id (edge_at edges j)))).
  { intros i j Hi Hj.
    rewrite !nth_tie_break by assumption.
    pose proof (Hid i Hi). pose proof (Hid j Hj). pose proof (Hle i Hi). pose proof (Hle j Hj).
    rewrite lex_encode by lia.
    split; intros [A|[A B]]; [left; exact A | right; split; [exact A | lia]
                             | left; exact A | right; split; [exact A | lia]]. }
  intros i j Hi Hj. split; [apply Hord; assumption|].
  intros Hne Heq.
  assert (N1 := Hord i j Hi Hj). assert (N2 := Hord j i Hj Hi).
  rewrite Heq in N1, N2.
  destruct (Z.lt_trichotomy (nth j p 0) (nth i p 0)) as [Hp|[Hp|Hp]].
  - pose proof (proj2 N1 (or_introl Hp)). lia.
  - destruct (Z.lt_trichotomy (id (edge_at edges i)) (id (edge_at edges j))) as [Hc|[Hc|Hc]];
      [| contradiction |].
    + assert (F : nth j (tie_break edges m p) 0 < nth j (tie_break edges m p) 0)
        by (apply (proj2 N1); right; split; [symmetry; exact Hp | exact Hc]). lia.
    + assert (F : nth j (tie_break edges m p) 0 < nth j (tie_break edges m p) 0)
        by (apply (proj2 N2); right; split; [exact Hp | exact Hc]). lia.
  - pose proof (proj2 N2 (or_introl Hp)). lia.
Qed.

Lemma final_priority_order_witness :
  compute_priority_critical_time chain_nodes chain_edges 1 20 = Returned [122; 151; 90]
  /\ exists p, relax chain_nodes chain_edges 1 20 = Some p.
Proof.
  assert (H : compute_priority_critical_time chain_nodes chain_edges 1 20 = Returned [122; 151; 90])
    by reflexivity.
  split; [exact H|].
  destruct (final_priority_order chain_nodes chain_edges 1 20 _ H) as [p [Hp _]].
  - intros [|[|[|i]]] Hi; simpl in *; lia.
  - exists p. exact Hp.
Defined.

(** ** [Plan.execute]: edge behaviour and the single-worker timeline *)

Lemma assign_empty_queue (edges : list Edge) (prio : nat -> Z) (slots : list nat) (st : EState) :
  queue (pstate st) = [] -> assign edges prio slots st = st.
Proof.
  intros Hq. induction slots as [|i rest IH]; simpl; [reflexivity|].
  destruct (nth i (active_edges st) None); [exact IH|]. rewrite Hq. reflexivity.
Qed.

Lemma forallb_none_repeat (n : nat) : forallb is_none (repeat (@None nat) n) = true.
Proof. induction n; simpl; auto. Qed.

Lemma mixed_repeat_none (n : nat) : mixed_times (repeat None n) = false.
Proof.
  unfold mixed_times. induction n as [|n IH]; [reflexivity|].
  simpl. simpl in IH. destruct (existsb is_none (repeat None n)); simpl in *; [exact IH|].
  clear IH. induction n; simpl; auto.
Qed.

Lemma execute_idle (edges : list Edge) (p : Plan) (s : PlanState) (prio : list Z)
  (n_jobs fuel : nat) (H : queue s = [] \/ n_jobs = 0%nat) :
  execute edges p s prio n_jobs (S fuel) = Returned [].
Proof.
  unfold execute. simpl. unfold exec_step, exec_init. cbn [completion_time].
  rewrite mixed_repeat_none.
  destruct H as [Hq | ->].
  - rewrite assign_empty_queue by exact Hq. simpl. rewrite forallb_none_repeat. reflexivity.
  - reflexivity.
Qed.

(** [execute] returns the empty mapping at once when the ready queue is
    empty, or when there are no worker slots ([n_jobs = 0]). *)
Theorem execute_nothing_to_run (edges : list Edge) (p : Plan) (s : PlanState) (prio : list Z)
  (n_jobs fuel : nat) (H : queue s = [] \/ n_jobs = 0%nat) :
  execute edges p s prio n_jobs (S fuel) = Returned [].
Proof. apply execute_idle. exact H. Qed.

Lemma execute_nothing_to_run_witness :
  execute chain_edges (plan_init chain_nodes chain_edges)
    (plan_state0 (plan_init chain_nodes chain_edges)) [0; 0; 0] 2 1 = Returned [].
Proof. apply execute_nothing_to_run. left. reflexivity. Defined.

(** Consecutive start times differ by the actual runtime of the earlier
    edge. *)
Fixpoint contiguous (edges : list Edge) (l : list (nat * Z)) : Prop :=
  match l with
  | (e1, t1) :: rest =>
      match rest with
      | (_, t2) :: _ => t2 = t1 + actual_run_time_ms (edge_at edges e1) /\ contiguous edges rest
      | [] => True
      end
  | [] => True
  end.

Lemma contiguous_snoc (edges : list Edge) (l : list (nat * Z)) (x e y : nat) (t : Z) :
  contiguous edges (l ++ [(x, t)]) ->
  contiguous edges (l ++ [(e, t); (y, t + actual_run_time_ms (edge_at edges e))]).
Proof.
  induction l as [|[e1 t1] l IH]; simpl.
  - intros _. split; [reflexivity | exact I].
  - destruct l as [|[e2 t2] l]; simpl.
    + intros [H _]. split; [exact H|]. split; [reflexivity | exact I].
    + intros [H1 H2]. split; [exact H1|]. apply IH. exact H2.
Qed.

Lemma contiguous_prefix (edges : list Edge) (l : list (nat * Z)) (x : nat) (t : Z) :
  contiguous edges (l ++ [(x, t)]) -> contiguous edges l.
Proof.
  induction l as [|[e1 t1] l IH]; simpl; [auto|].
  destruct l as [|[e2 t2] l]; simpl; [auto|].
  intros [H1 H2]. split; [exact H1 | apply IH, H2].
Qed.

(** The state of a single worker between iterations: the slot is free and
    the assignments so far, followed by the clock, start at 0 and are
    contiguous. *)
Definition single_inv (edges : list Edge) (st : EState) : Prop :=
  active_edges st = [None] /\ completion_time st = [None]
  /\ contiguous edges (start_times st ++ [(0%nat, current_time st)])
  /\ match start_times st ++ [(0%nat, current_time st)] with
     | (_, t0) :: _ => t0 = 0
     | [] => True
     end.

Lemma single_step (edges : list Edge) (wf : nat -> list nat) (prio : nat -> Z) (st : EState) :
  single_inv edges st ->
  exec_step edges wf prio 1 st = Finish (start_times st)
  \/ exists st', exec_step edges wf prio 1 st = Continue st' /\ single_inv edges st'.
Proof.
  destruct st as [a c t l ps]. intros [Ha [Hc [Hcont Hhead]]].
  cbn [active_edges completion_time start_times current_time pstate] in *. subst a c.
  unfold exec_step. simpl.
  destruct (pop prio (queue ps)) as [[e q']|] eqn:Hp; simpl.
  - rewrite Z.eqb_refl. right.
    eexists. split; [reflexivity|].
    unfold single_inv; cbn [active_edges completion_time start_times current_time].
    split; [reflexivity|]. split; [reflexivity|]. split.
    + rewrite <- app_assoc. simpl. eapply contiguous_snoc. exact Hcont.
    + destruct l as [|[e0 t0] l]; simpl in *; [exact Hhead | exact Hhead].
  - left. reflexivity.
Qed.

Lemma single_loop (edges : list Edge) (wf : nat -> list nat) (prio : nat -> Z) (fuel : nat) (st : EState) :
  single_inv edges st ->
  (forall err, execute_loop edges wf prio 1 fuel st <> Raised err)
  /\ (forall m, execute_loop edges wf prio 1 fuel st = Returned m ->
        contiguous edges m /\ match m with (_, t0) :: _ => t0 = 0 | [] => True end).
Proof.
  revert st. induction fuel as [|fuel IH]; intros st Hinv; simpl.
  - split; intros; discriminate.
  - destruct (single_step edges wf prio st Hinv) as [Hf|[st' [Hs Hinv']]].
    + rewrite Hf. split; [intros; discriminate|].
      intros m E. inversion E; subst m. destruct Hinv as [_ [_ [Hcont Hhead]]].
      split; [eapply contiguous_prefix; exact Hcont|].
      destruct (start_times st) as [|[e0 t0] l]; simpl in *; [exact I | exact Hhead].
    + rewrite Hs. apply IH. exact Hinv'.
Qed.

(** With one worker, [execute] never raises, and the mapping it returns
    lists the edges in the order they were started: the first starts at
    0 and each next one starts when the previous one's actual runtime has
    elapsed. *)
Theorem single_worker_timeline (edges : list Edge) (p : Plan) (s : PlanState) (prio : list Z)
  (fuel : nat) :
  (forall err, execute edges p s prio 1 fuel <> Raised err)
  /\ (forall m, execute edges p s prio 1 fuel = Returned m ->
        contiguous edges m /\ match m with (_, t0) :: _ => t0 = 0 | [] => True end).
Proof.
  apply single_loop. unfold single_inv, exec_init. simpl. repeat split; reflexivity.
Qed.

(** ** [p75_runtime]: what the result can be *)

Lemma p75_sorted_eq (e1 e2 : list Edge) :
  Permutation (available_run_times e1) (available_run_times e2) ->
  ZSort.sort (available_run_times e1) = ZSort.sort (available_run_times e2).
Proof.
  intros Hp. apply sorted_perm_unique; try apply sort_sorted.
  eapply Permutation_trans; [apply Permutation_sym, sort_perm|].
  eapply Permutation_trans; [exact Hp | apply sort_perm].
Qed.

(** [p75_runtime] depends only on the multiset of known runtimes: the order
    of the edges and the edges without a [run_time_ms] do not matter. *)
Theorem p75_runtime_multiset (e1 e2 : list Edge)
  (H : Permutation (available_run_times e1) (available_run_times e2)) :
  p75_runtime e1 = p75_runtime e2.
Proof.
  unfold p75_runtime. pose proof (p75_sorted_eq e1 e2 H) as Hs.
  destruct (available_run_times e1) as [|a l] eqn:E1;
  destruct (available_run_times e2) as [|b m] eqn:E2.
  - reflexivity.
  - apply Permutation_nil in H. discriminate.
  - apply Permutation_sym, Permutation_nil in H. discriminate.
  - rewrite Hs. reflexivity.
Qed.

Lemma p75_runtime_multiset_witness :
  Permutation (available_run_times (rev chain_edges)) (available_run_times chain_edges)
  /\ p75_runtime (rev chain_edges) = p75_runtime chain_edges.
Proof.
  assert (Hp : Permutation (available_run_times (rev chain_edges)) (available_run_times chain_edges)).
  { simpl. apply (Permutation_sym (Permutation_rev [10; 20; 30])). }
  split; [exact Hp | apply (p75_runtime_multiset _ _ Hp)].
Defined.

(** [p75_runtime] returns 1 when no edge has a known runtime, and
    otherwise one of the known runtimes. *)
Theorem p75_runtime_range (edges : list Edge) :
  (available_run_times edges = [] /\ p75_runtime edges = 1)
  \/ In (p75_runtime edges) (available_run_times edges).
Proof.
  unfold p75_runtime. destruct (available_run_times edges) as [|a l] eqn:E.
  - left. split; reflexivity.
  - right. apply (Permutation_in _ (Permutation_sym (sort_perm (a :: l)))).
    apply nth_In. pose proof (Permutation_length (sort_perm (a :: l))) as Hl.
    set (n := length (ZSort.sort (a :: l))) in *.
    assert (Hn : (0 < n)%nat) by (rewrite <- Hl; simpl; lia).
    pose proof (p75_index_bounds (Z.of_nat n) ltac:(lia)) as Hb. lia.
Qed.

(** ** The pipeline *)

(** Because [Plan.__init__] pushes nothing into the ready queue, the
    pipeline schedules no edge: it returns the empty mapping, raises
    [ValueError] from [max] over an empty edge list, or runs past the
    bound. *)
Theorem schedule_outcomes (nodes : list Node) (edges : list Edge) (n_jobs fuel : nat) :
  schedule nodes edges n_jobs (S fuel) = Returned []
  \/ (edges = [] /\ schedule nodes edges n_jobs (S fuel) = Raised ValueError)
  \/ schedule nodes edges n_jobs (S fuel) = OutOfFuel.
Proof.
  unfold schedule, compute_priority_critical_time.
  destruct (relax nodes edges (p75_runtime edges) (S fuel)) as [p|]; [|right; right; reflexivity].
  destruct edges as [|e rest]; simpl.
  - right; left. split; reflexivity.
  - left. apply execute_idle. left. reflexivity.
Qed.
